(** * The todo list component: state, persistence and edit sessions

    A shallow embedding of [src/app/components/TodoList.tsx] (the component
    with persistence and in-place editing) and of its reduced variant
    (module [Basic]), with the properties of the collection engine, the store
    adapter and the view-state coordinator.

    Conventions of the embedding:
    - a JavaScript string is the list of its UTF-16 code units ([list N]);
    - a React state variable is a field of [State]; an event handler is a
      function from the state of the render it closes over to the list of
      state setters it calls, in order; [run] applies them, as React does
      when it commits the batch;
    - a call that may throw returns a [result]; [try]/[catch] is a [match];
    - [localStorage] is a finite map from keys to values with a quota. *)

From Stdlib Require Import Ascii.
From stdpp Require Import base decidable option list numbers strings pretty gmap.

Local Open Scope N_scope.

(** ** JavaScript strings *)

(** The code units of a literal written in ASCII. *)
Definition js (s : string) : list N :=
  Ascii.N_of_ascii <$> String.list_ascii_of_string s.

(** [WhiteSpace] and [LineTerminator] of ECMAScript: what
    [String.prototype.trim] strips. *)
Definition isWhiteSpace (c : N) : bool :=
  bool_decide (c ∈ [9; 10; 11; 12; 13; 32; 160; 5760; 8232; 8233; 8239; 8287;
                    12288; 65279])
  || ((8192 <=? c) && (c <=? 8202)).

Fixpoint trimStart (s : list N) : list N :=
  match s with
  | [] => []
  | c :: r => if isWhiteSpace c then trimStart r else s
  end.

Definition trimEnd (s : list N) : list N := reverse (trimStart (reverse s)).

(** [s.trim()] *)
Definition trim (s : list N) : list N := trimEnd (trimStart s).

(** A string used as a condition: only the empty string is falsy. *)
Definition truthy (s : list N) : bool :=
  match s with [] => false | _ :: _ => true end.

(** [s.substring(start, stop)] for [start <= stop]. *)
Definition substring (start stop : nat) (s : list N) : list N :=
  take (stop - start) (drop start s).

(** ** The data model *)

Record Todo := mkTodo {
  id : list N;
  text : list N;
  completed : bool
}.

Inductive Filter := Filter_all | Filter_active | Filter_completed.

(** ** Id generation *)

(** What [generateId] reads from the platform at one call:
    [crypto.randomUUID()] where [crypto] offers it, otherwise the clock and
    two draws of [Math.random().toString(36)]. *)
Record IdSource := {
  crypto_randomUUID : option (list N);
  Date_now : N;
  Math_random_36_1 : list N;
  Math_random_36_2 : list N
}.

Definition generateId (g : IdSource) : list N :=
  match crypto_randomUUID g with
  | Some uuid => uuid
  | None =>
      js (pretty (Date_now g)) ++ js "-"
      ++ substring 2 15 (Math_random_36_1 g) ++ js "-"
      ++ substring 2 15 (Math_random_36_2 g)
  end.

(** ** The component of [TodoList.tsx] *)

Record State := mkState {
  todos : list Todo;
  inputValue : list N;
  filter_ : Filter;
  editingId : option (list N);
  editValue : list N;
  hasLoaded : bool
}.

(** [useState] initial values. *)
Definition initialState : State :=
  {| todos := []; inputValue := []; filter_ := Filter_all;
     editingId := None; editValue := []; hasLoaded := false |}.

Inductive Setter :=
| setTodos (v : list Todo)
| setInputValue (v : list N)
| setFilter (v : Filter)
| setEditingId (v : option (list N))
| setEditValue (v : list N)
| setHasLoaded (v : bool).

Definition perform (s : State) (c : Setter) : State :=
  match c with
  | setTodos v =>
      {| todos := v; inputValue := inputValue s; filter_ := filter_ s;
         editingId := editingId s; editValue := editValue s;
         hasLoaded := hasLoaded s |}
  | setInputValue v =>
      {| todos := todos s; inputValue := v; filter_ := filter_ s;
         editingId := editingId s; editValue := editValue s;
         hasLoaded := hasLoaded s |}
  | setFilter v =>
      {| todos := todos s; inputValue := inputValue s; filter_ := v;
         editingId := editingId s; editValue := editValue s;
         hasLoaded := hasLoaded s |}
  | setEditingId v =>
      {| todos := todos s; inputValue := inputValue s; filter_ := filter_ s;
         editingId := v; editValue := editValue s;
         hasLoaded := hasLoaded s |}
  | setEditValue v =>
      {| todos := todos s; inputValue := inputValue s; filter_ := filter_ s;
         editingId := editingId s; editValue := v;
         hasLoaded := hasLoaded s |}
  | setHasLoaded v =>
      {| todos := todos s; inputValue := inputValue s; filter_ := filter_ s;
         editingId := editingId s; editValue := editValue s;
         hasLoaded := v |}
  end.

(** The state of the next render: the handler runs on the state it closed
    over and its setter calls are committed in order. *)
Definition run (handler : State → list Setter) (s : State) : State :=
  foldl perform s (handler s).

Definition addTodo (g : IdSource) (s : State) : list Setter :=
  if truthy (trim (inputValue s)) then
    let newTodo :=
      {| id := generateId g; text := trim (inputValue s); completed := false |} in
    [setTodos (todos s ++ [newTodo]); setInputValue []]
  else [].

Definition toggleTodo (i : list N) (s : State) : list Setter :=
  [setTodos
     ((λ todo,
        if decide (id todo = i)
        then {| id := id todo; text := text todo;
                completed := negb (completed todo) |}
        else todo) <$> todos s)].

Definition deleteTodo (i : list N) (s : State) : list Setter :=
  [setTodos (filter (λ todo, id todo ≠ i) (todos s))].

Definition startEdit (todo : Todo) (s : State) : list Setter :=
  [setEditingId (Some (id todo)); setEditValue (text todo)].

Definition cancelEdit (s : State) : list Setter :=
  [setEditingId None; setEditValue []].

Definition saveEdit (i : list N) (s : State) : list Setter :=
  if truthy (trim (editValue s)) then
    [setTodos
       ((λ todo,
          if decide (id todo = i)
          then {| id := id todo; text := trim (editValue s);
                  completed := completed todo |}
          else todo) <$> todos s);
     setEditingId None;
     setEditValue []]
  else cancelEdit s.

Inductive Key := Key_Enter | Key_Escape | Key_other.

Definition handleEditKeyDown (key : Key) (i : list N) (s : State) : list Setter :=
  match key with
  | Key_Enter => saveEdit i s
  | Key_Escape => cancelEdit s
  | Key_other => []
  end.

Definition handleKeyDown (g : IdSource) (key : Key) (s : State) : list Setter :=
  match key with
  | Key_Enter => addTodo g s
  | _ => []
  end.

Definition filteredTodos (s : State) : list Todo :=
  filter
    (λ todo,
      (match filter_ s with
       | Filter_active => negb (completed todo)
       | Filter_completed => completed todo
       | Filter_all => true
       end : bool))
    (todos s).

Definition activeCount (s : State) : nat :=
  length (filter (λ todo, negb (completed todo)) (todos s)).

(** The two controls of a rendered row that start an edit session.  The text
    is rendered with [onDoubleClick={() => !todo.completed && startEdit(todo)}],
    the Edit button with [onClick={() => startEdit(todo)}] and
    [disabled={todo.completed}]: a disabled button dispatches no click. *)
Definition text_onDoubleClick (todo : Todo) (s : State) : list Setter :=
  if negb (completed todo) then startEdit todo s else [].

Definition editButton_onClick (todo : Todo) (s : State) : list Setter :=
  if completed todo then [] else startEdit todo s.

(** ** The reduced variant of the component ([src/unnamed/part_000])

    The same collection engine without persistence and without edit
    sessions: three state variables and the handlers over them. *)
Module Basic.

Record State := mkState {
  todos : list Todo;
  inputValue : list N;
  filter_ : Filter
}.

Definition initialState : State :=
  {| todos := []; inputValue := []; filter_ := Filter_all |}.

Inductive Setter :=
| setTodos (v : list Todo)
| setInputValue (v : list N)
| setFilter (v : Filter).

Definition perform (s : State) (c : Setter) : State :=
  match c with
  | setTodos v =>
      {| todos := v; inputValue := inputValue s; filter_ := filter_ s |}
  | setInputValue v =>
      {| todos := todos s; inputValue := v; filter_ := filter_ s |}
  | setFilter v =>
      {| todos := todos s; inputValue := inputValue s; filter_ := v |}
  end.

Definition run (handler : State → list Setter) (s : State) : State :=
  foldl perform s (handler s).

Definition addTodo (g : IdSource) (s : State) : list Setter :=
  if truthy (trim (inputValue s)) then
    let newTodo :=
      {| id := generateId g; text := trim (inputValue s); completed := false |} in
    [setTodos (todos s ++ [newTodo]); setInputValue []]
  else [].

Definition toggleTodo (i : list N) (s : State) : list Setter :=
  [setTodos
     ((λ todo,
        if decide (id todo = i)
        then {| id := id todo; text := text todo;
                completed := negb (completed todo) |}
        else todo) <$> todos s)].

Definition deleteTodo (i : list N) (s : State) : list Setter :=
  [setTodos (filter (λ todo, id todo ≠ i) (todos s))].

Definition filteredTodos (s : State) : list Todo :=
  filter
    (λ todo,
      (match filter_ s with
       | Filter_active => negb (completed todo)
       | Filter_completed => completed todo
       | Filter_all => true
       end : bool))
    (todos s).

Definition activeCount (s : State) : nat :=
  length (filter (λ todo, negb (completed todo)) (todos s)).

Definition handleKeyDown (g : IdSource) (key : Key) (s : State) : list Setter :=
  match key with
  | Key_Enter => addTodo g s
  | _ => []
  end.

End Basic.

(** ** JSON values and [JSON.stringify] *)

(** The values [JSON.parse] builds.  A number is kept as the digits that
    were read (the double they denote is not modelled, and no statement
    below depends on one); an object is kept as its members in the order
    of the text. *)
#[local] Unset Elimination Schemes.
Inductive json :=
| JNull
| JBool (b : bool)
| JNumber (lexeme : list N)
| JString (s : list N)
| JArray (elements : list json)
| JObject (members : list (list N * json)).
#[local] Set Elimination Schemes.

Definition ch (a : Ascii.ascii) : N := Ascii.N_of_ascii a.
Arguments ch a%_char.

(** The code unit of the double quote. *)
Definition quote : N := 34.

Definition hex_digit (d : N) : N := if d <? 10 then 48 + d else 87 + d.

(** [\uXXXX] with lower-case digits. *)
Definition unicode_escape (c : N) : list N :=
  [ch "\"; ch "u"; hex_digit (c / 4096); hex_digit ((c / 256) mod 16);
   hex_digit ((c / 16) mod 16); hex_digit (c mod 16)].

Definition is_leading_surrogate (c : N) : bool := (55296 <=? c) && (c <=? 56319).
Definition is_trailing_surrogate (c : N) : bool := (56320 <=? c) && (c <=? 57343).

(** One code point that is not a surrogate, as [QuoteJSONString] writes it. *)
Definition quote_code_point (c : N) : list N :=
  if c =? 8 then [ch "\"; ch "b"]
  else if c =? 9 then [ch "\"; ch "t"]
  else if c =? 10 then [ch "\"; ch "n"]
  else if c =? 12 then [ch "\"; ch "f"]
  else if c =? 13 then [ch "\"; ch "r"]
  else if c =? quote then [ch "\"; quote]
  else if c =? ch "\" then [ch "\"; ch "\"]
  else if c <? 32 then unicode_escape c
  else [c].

(** The inside of a quoted string: the string is read by code points, a
    surrogate pair is written as it is and a lone surrogate is escaped. *)
Fixpoint quote_chars (s : list N) : list N :=
  match s with
  | [] => []
  | c :: r =>
      if is_leading_surrogate c then
        match r with
        | d :: r' =>
            if is_trailing_surrogate d then c :: d :: quote_chars r'
            else unicode_escape c ++ quote_chars r
        | [] => unicode_escape c
        end
      else if is_trailing_surrogate c then unicode_escape c ++ quote_chars r
      else quote_code_point c ++ quote_chars r
  end.

Definition QuoteJSONString (s : list N) : list N :=
  quote :: quote_chars s ++ [quote].

Fixpoint join (sep : list N) (parts : list (list N)) : list N :=
  match parts with
  | [] => []
  | [p] => p
  | p :: ps => p ++ sep ++ join sep ps
  end.

Fixpoint JSON_stringify (v : json) : list N :=
  match v with
  | JNull => js "null"
  | JBool true => js "true"
  | JBool false => js "false"
  | JNumber lexeme => lexeme
  | JString s => QuoteJSONString s
  | JArray elements =>
      ch "[" :: join [ch ","] (JSON_stringify <$> elements) ++ [ch "]"]
  | JObject members =>
      ch "{"
      :: join [ch ","]
           ((λ m, QuoteJSONString m.1 ++ ch ":" :: JSON_stringify m.2) <$> members)
      ++ [ch "}"]
  end.

(** ** [JSON.parse] *)

(** The outcome of reading a prefix of the text: a value and the rest of
    the text, a syntax error, or the recursion budget used up. *)
Inductive parsed (A : Type) :=
| Parsed (a : A) (rest : list N)
| Invalid
| Exhausted.
Arguments Parsed {A} a rest.
Arguments Invalid {A}.
Arguments Exhausted {A}.

Definition parsed_map {A B} (f : A → B) (p : parsed A) : parsed B :=
  match p with
  | Parsed a rest => Parsed (f a) rest
  | Invalid => Invalid
  | Exhausted => Exhausted
  end.

(** JSON white space: tab, line feed, carriage return, space. *)
Definition is_json_ws (c : N) : bool :=
  (c =? 9) || (c =? 10) || (c =? 13) || (c =? 32).

Fixpoint skip_ws (s : list N) : list N :=
  match s with
  | [] => []
  | c :: r => if is_json_ws c then skip_ws r else s
  end.

Definition is_digit (c : N) : bool := (48 <=? c) && (c <=? 57).

Definition hex_value (c : N) : option N :=
  if is_digit c then Some (c - 48)
  else if (65 <=? c) && (c <=? 70) then Some (c - 55)
  else if (97 <=? c) && (c <=? 102) then Some (c - 87)
  else None.

(** The character a two-character escape stands for. *)
Definition unescape (e : N) : option N :=
  if e =? quote then Some quote
  else if e =? ch "\" then Some (ch "\")
  else if e =? ch "/" then Some (ch "/")
  else if e =? ch "b" then Some 8
  else if e =? ch "f" then Some 12
  else if e =? ch "n" then Some 10
  else if e =? ch "r" then Some 13
  else if e =? ch "t" then Some 9
  else None.

(** The characters of a string, from after the opening quote to the
    closing quote. *)
Fixpoint parse_chars (s : list N) : parsed (list N) :=
  match s with
  | [] => Invalid
  | c :: r =>
      if c =? quote then Parsed [] r
      else if c =? ch "\" then
        match r with
        | [] => Invalid
        | e :: r1 =>
            if e =? ch "u" then
              match r1 with
              | h1 :: h2 :: h3 :: h4 :: r2 =>
                  match hex_value h1, hex_value h2, hex_value h3, hex_value h4 with
                  | Some d1, Some d2, Some d3, Some d4 =>
                      parsed_map (cons (((d1 * 16 + d2) * 16 + d3) * 16 + d4))
                        (parse_chars r2)
                  | _, _, _, _ => Invalid
                  end
              | _ => Invalid
              end
            else
              match unescape e with
              | Some u => parsed_map (cons u) (parse_chars r1)
              | None => Invalid
              end
        end
      else if c <? 32 then Invalid
      else parsed_map (cons c) (parse_chars r)
  end.

(** The longest run of digits at the head of the text. *)
Fixpoint digits (s : list N) : list N * list N :=
  match s with
  | [] => ([], [])
  | c :: r =>
      if is_digit c then let '(ds, rest) := digits r in (c :: ds, rest)
      else ([], s)
  end.

(** A number: an optional minus sign; a zero, or a digit from 1 to 9 and
    more digits; an optional fraction (a point and digits); an optional
    exponent (e or E, an optional sign, digits). *)
Definition parse_int (s : list N) : parsed (list N) :=
  match s with
  | [] => Invalid
  | c :: r =>
      if c =? ch "0" then Parsed [c] r
      else if is_digit c then let '(ds, rest) := digits r in Parsed (c :: ds) rest
      else Invalid
  end.

Definition parse_frac (s : list N) : parsed (list N) :=
  match s with
  | c :: r =>
      if c =? ch "." then
        match digits r with
        | ([], _) => Invalid
        | (ds, rest) => Parsed (c :: ds) rest
        end
      else Parsed [] s
  | [] => Parsed [] s
  end.

Definition parse_exp (s : list N) : parsed (list N) :=
  match s with
  | c :: r =>
      if (c =? ch "e") || (c =? ch "E") then
        let '(sign, r1) :=
          match r with
          | g :: r' => if (g =? ch "+") || (g =? ch "-") then ([g], r') else ([], r)
          | [] => ([], r)
          end in
        match digits r1 with
        | ([], _) => Invalid
        | (ds, rest) => Parsed (c :: sign ++ ds) rest
        end
      else Parsed [] s
  | [] => Parsed [] s
  end.

Definition parse_number (s : list N) : parsed (list N) :=
  let '(sign, s1) :=
    match s with
    | c :: r => if c =? ch "-" then ([c], r) else ([], s)
    | [] => ([], s)
    end in
  match parse_int s1 with
  | Parsed i s2 =>
      match parse_frac s2 with
      | Parsed f s3 =>
          match parse_exp s3 with
          | Parsed e s4 => Parsed (sign ++ i ++ f ++ e) s4
          | other => other
          end
      | other => other
      end
  | other => other
  end.

(** The text after a given word, when the text starts with it. *)
Fixpoint strip_prefix (word s : list N) : option (list N) :=
  match word with
  | [] => Some s
  | a :: word' =>
      match s with
      | b :: s' => if a =? b then strip_prefix word' s' else None
      | [] => None
      end
  end.

Definition parse_word (word : list N) (v : json) (s : list N) : parsed json :=
  match strip_prefix word s with
  | Some rest => Parsed v rest
  | None => Invalid
  end.

(** Values, the elements of an array after its opening bracket and the
    members of an object after its opening brace.  Every call spends one
    unit of [fuel]. *)
Fixpoint parse_value (fuel : nat) (s : list N) : parsed json :=
  match fuel with
  | O => Exhausted
  | S fuel' =>
      match skip_ws s with
      | [] => Invalid
      | c :: r =>
          if c =? quote then parsed_map JString (parse_chars r)
          else if c =? ch "[" then
            match skip_ws r with
            | [] => Invalid
            | c' :: r' =>
                if c' =? ch "]" then Parsed (JArray []) r'
                else parsed_map JArray (parse_elements fuel' r)
            end
          else if c =? ch "{" then
            match skip_ws r with
            | [] => Invalid
            | c' :: r' =>
                if c' =? ch "}" then Parsed (JObject []) r'
                else parsed_map JObject (parse_members fuel' r)
            end
          else if c =? ch "t" then parse_word (js "rue") (JBool true) r
          else if c =? ch "f" then parse_word (js "alse") (JBool false) r
          else if c =? ch "n" then parse_word (js "ull") JNull r
          else if (c =? ch "-") || is_digit c then
            parsed_map JNumber (parse_number (c :: r))
          else Invalid
      end
  end
with parse_elements (fuel : nat) (s : list N) : parsed (list json) :=
  match fuel with
  | O => Exhausted
  | S fuel' =>
      match parse_value fuel' s with
      | Parsed v r =>
          match skip_ws r with
          | [] => Invalid
          | c :: r' =>
              if c =? ch "," then parsed_map (cons v) (parse_elements fuel' r')
              else if c =? ch "]" then Parsed [v] r'
              else Invalid
          end
      | Invalid => Invalid
      | Exhausted => Exhausted
      end
  end
with parse_members (fuel : nat) (s : list N) : parsed (list (list N * json)) :=
  match fuel with
  | O => Exhausted
  | S fuel' =>
      match skip_ws s with
      | [] => Invalid
      | c :: r =>
          if c =? quote then
            match parse_chars r with
            | Parsed k r1 =>
                match skip_ws r1 with
                | [] => Invalid
                | c1 :: r2 =>
                    if c1 =? ch ":" then
                      match parse_value fuel' r2 with
                      | Parsed v r3 =>
                          match skip_ws r3 with
                          | [] => Invalid
                          | c3 :: r4 =>
                              if c3 =? ch "," then
                                parsed_map (cons (k, v)) (parse_members fuel' r4)
                              else if c3 =? ch "}" then Parsed [(k, v)] r4
                              else Invalid
                          end
                      | Invalid => Invalid
                      | Exhausted => Exhausted
                      end
                    else Invalid
                end
            | Invalid => Invalid
            | Exhausted => Exhausted
            end
          else Invalid
      end
  end.

(** ** Exceptions *)

Inductive Exn := SyntaxError | RangeError | QuotaExceededError | SecurityError.

Inductive result (A : Type) :=
| Ok (a : A)
| Throw (e : Exn).
Arguments Ok {A} a.
Arguments Throw {A} e.

(** [JSON.parse(text)]: one value, white space around it allowed and
    nothing else.  The budget is twice the length of the text and two more,
    which no text uses up ([JSON_parse_throws_SyntaxError]). *)
Definition JSON_parse (text : list N) : result json :=
  match parse_value (2 * length text + 2) text with
  | Parsed v rest =>
      match skip_ws rest with
      | [] => Ok v
      | _ :: _ => Throw SyntaxError
      end
  | Invalid => Throw SyntaxError
  | Exhausted => Throw RangeError
  end.

Definition result_bind {A B} (m : result A) (k : A → result B) : result B :=
  match m with
  | Ok a => k a
  | Throw e => Throw e
  end.

(** [try { body } catch { handler }] *)
Definition try_catch {A} (body : result A) (handler : result A) : result A :=
  match body with
  | Ok a => Ok a
  | Throw _ => handler
  end.

(** ** The platform: [window] and [localStorage] *)

(** The storage area of the page: its entries and the room it has, counted
    in code units over keys and values. *)
Record Storage := {
  items : gmap (list N) (list N);
  quota : N
}.

Definition usage (m : gmap (list N) (list N)) : N :=
  map_fold (λ k v total, N.of_nat (length k) + N.of_nat (length v) + total) 0 m.

(** Where the component runs: whether [window] is defined (it is not while
    rendering on a server), and the storage area behind the global
    [localStorage], if reading that global does not throw. *)
Record Env := {
  window_defined : bool;
  localStorage : option Storage
}.

Definition localStorage_getItem (env : Env) (key : list N)
    : result (option (list N)) :=
  match localStorage env with
  | None => Throw SecurityError
  | Some st => Ok (items st !! key)
  end.

Definition localStorage_setItem (env : Env) (key value : list N) : result Env :=
  match localStorage env with
  | None => Throw SecurityError
  | Some st =>
      if usage (<[key := value]> (items st)) <=? quota st then
        Ok {| window_defined := window_defined env;
              localStorage :=
                Some {| items := <[key := value]> (items st);
                        quota := quota st |} |}
      else Throw QuotaExceededError
  end.

(** ** The store adapter *)

Definition STORAGE_KEY : list N := js "todos".

(** The JavaScript value of a [Todo]: an object with the three properties
    in the order every constructor of the component writes them. *)
Definition todo_to_json (t : Todo) : json :=
  JObject [(js "id", JString (id t)); (js "text", JString (text t));
           (js "completed", JBool (completed t))].

Definition todos_to_json (C : list Todo) : json :=
  JArray (todo_to_json <$> C).

(** The value [loadTodosFromStorage] returns is typed [Todo[]] without a
    check.  [todos_of_json] reads a value as a collection when it is one. *)
Definition todo_of_json (v : json) : option Todo :=
  match v with
  | JObject [(k1, JString i); (k2, JString t); (k3, JBool c)] =>
      if bool_decide (k1 = js "id" ∧ k2 = js "text" ∧ k3 = js "completed")
      then Some {| id := i; text := t; completed := c |}
      else None
  | _ => None
  end.

Definition todos_of_json (v : json) : option (list Todo) :=
  match v with
  | JArray elements => mapM todo_of_json elements
  | _ => None
  end.

Definition loadTodosFromStorage (env : Env) : result json :=
  if negb (window_defined env) then Ok (JArray [])
  else
    try_catch
      (result_bind (localStorage_getItem env STORAGE_KEY) (λ stored,
         match stored with
         | Some blob => if truthy blob then JSON_parse blob else Ok (JArray [])
         | None => Ok (JArray [])
         end))
      (Ok (JArray [])).

(** Returns the environment after the call. *)
Definition saveTodosToStorage (env : Env) (todos : list Todo) : result Env :=
  if negb (window_defined env) then Ok env
  else
    try_catch
      (localStorage_setItem env STORAGE_KEY (JSON_stringify (todos_to_json todos)))
      (Ok env).

(** ** The coordinator: effects and events *)

(** Calls of the store adapter, in the order they happen. *)
Inductive StoreOp :=
| Loaded
| Saved (C : list Todo).

Record World := {
  view : State;
  env : Env;
  mounted : bool;
  log : list StoreOp
}.

(** The first render is committed and its effects have not run yet. *)
Definition initialWorld (e : Env) : World :=
  {| view := initialState; env := e; mounted := false; log := [] |}.

(** What the user can do to the rendered component. *)
Inductive UserEvent :=
| ChangeInput (v : list N)
| ClickAdd (g : IdSource)
| InputKeyDown (g : IdSource) (key : Key)
| SelectFilter (f : Filter)
| ToggleRow (i : list N)
| DeleteRow (i : list N)
| DoubleClickText (todo : Todo)
| ClickEdit (todo : Todo)
| ChangeEdit (v : list N)
| EditKeyDown (key : Key) (i : list N)
| EditBlur (i : list N).

Definition handler (e : UserEvent) : State → list Setter :=
  match e with
  | ChangeInput v => λ _, [setInputValue v]
  | ClickAdd g => addTodo g
  | InputKeyDown g key => handleKeyDown g key
  | SelectFilter f => λ _, [setFilter f]
  | ToggleRow i => toggleTodo i
  | DeleteRow i => deleteTodo i
  | DoubleClickText todo => text_onDoubleClick todo
  | ClickEdit todo => editButton_onClick todo
  | ChangeEdit v => λ _, [setEditValue v]
  | EditKeyDown key i => handleEditKeyDown key i
  | EditBlur i => saveEdit i
  end.

(** The second effect, as it runs for a render with state [s]:
    [if (hasLoaded) saveTodosToStorage(todos)]. *)
Definition persistEffect (s : State) (w : Env * list StoreOp)
    : result (Env * list StoreOp) :=
  if hasLoaded s then
    result_bind (saveTodosToStorage w.1 (todos s)) (λ e,
      Ok (e, w.2 ++ [Saved (todos s)]))
  else Ok w.

(** The dependencies [[todos, hasLoaded]] of the second effect differ
    between the render with state [s] and the next one, reached by the
    setter calls [cmds]: every [setTodos] of the component passes a new
    array, and [hasLoaded] is compared by value. *)
Definition is_setTodos (c : Setter) : bool :=
  match c with setTodos _ => true | _ => false end.

Definition deps_changed (s : State) (cmds : list Setter) : bool :=
  existsb is_setTodos cmds
  || negb (eqb (hasLoaded s) (hasLoaded (foldl perform s cmds))).

(** The effects of the first render, in the order they are declared.  Both
    close over the state of that render.  The first loads and calls
    [setTodos] and [setHasLoaded]; then the component renders again and the
    second effect runs for the new render, its dependencies having changed.
    The step is defined when the loaded value is a collection, as its type
    says it is. *)
Definition mount (w : World) : option World :=
  match loadTodosFromStorage (env w) with
  | Throw _ => None
  | Ok loaded =>
      match todos_of_json loaded with
      | None => None
      | Some loadedTodos =>
          let cmds := [setTodos loadedTodos; setHasLoaded true] in
          match
            result_bind (persistEffect (view w) (env w, log w ++ [Loaded]))
              (λ w1,
                if deps_changed (view w) cmds
                then persistEffect (foldl perform (view w) cmds) w1
                else Ok w1)
          with
          | Ok (e, l) =>
              Some {| view := foldl perform (view w) cmds; env := e;
                      mounted := true; log := l |}
          | Throw _ => None
          end
      end
  end.

(** A user event: its handler runs on the current render and the second
    effect runs for the next render when its dependencies have changed. *)
Definition dispatch (e : UserEvent) (w : World) : option World :=
  let cmds := handler e (view w) in
  match
    if deps_changed (view w) cmds
    then persistEffect (foldl perform (view w) cmds) (env w, log w)
    else Ok (env w, log w)
  with
  | Ok (e', l) =>
      Some {| view := foldl perform (view w) cmds; env := e';
              mounted := mounted w; log := l |}
  | Throw _ => None
  end.

Inductive Event :=
| Mount
| User (e : UserEvent).

(** React runs the effects of the first render before it handles an event,
    and runs them once. *)
Definition step (w : World) (e : Event) : option World :=
  match e with
  | Mount => if mounted w then None else mount w
  | User u => if mounted w then dispatch u w else None
  end.


(** Saving and then loading, from one environment. *)
Definition save_then_load (env : Env) (C : list Todo) : result json :=
  result_bind (saveTodosToStorage env C) loadTodosFromStorage.

(** ** Sample data *)

Definition milk : Todo :=
  {| id := js "a1"; text := js "Buy milk"; completed := false |}.

Definition dog : Todo :=
  {| id := js "b2"; text := js "Walk dog"; completed := true |}.

(** A platform with [crypto.randomUUID], about to return a given id. *)
Definition uuid (i : list N) : IdSource :=
  {| crypto_randomUUID := Some i; Date_now := 0;
     Math_random_36_1 := []; Math_random_36_2 := [] |}.

(** A browser whose storage holds [blob] under the key of the component,
    if it holds anything, with room for [room] code units. *)
Definition browser (blob : option (list N)) (room : N) : Env :=
  {| window_defined := true;
     localStorage :=
       Some {| items := match blob with
                        | Some b => {[ STORAGE_KEY := b ]}
                        | None => ∅
                        end;
               quota := room |} |}.

(** Rendering on a server: [window] is not defined. *)
Definition server : Env := {| window_defined := false; localStorage := None |}.

(** A render of the component with two items and some input typed. *)
Definition sampleState : State :=
  {| todos := [milk; dog]; inputValue := js "  Feed cat "; filter_ := Filter_all;
     editingId := Some (js "a1"); editValue := js " Buy oat milk ";
     hasLoaded := true |}.

Definition sampleBasic : Basic.State :=
  {| Basic.todos := [milk; dog]; Basic.inputValue := js "  Feed cat ";
     Basic.filter_ := Filter_all |}.

(** A render of the component with a blank input and a blank scratch
    text. *)
Definition blankState : State :=
  {| todos := [milk; dog]; inputValue := [32; 9; 160]; filter_ := Filter_all;
     editingId := Some (js "a1"); editValue := [32; 32]; hasLoaded := true |}.

Definition blankBasic : Basic.State :=
  {| Basic.todos := [milk; dog]; Basic.inputValue := [32; 9; 160];
     Basic.filter_ := Filter_all |}.

(** The world a list of events leads to, if every step is defined. *)
Definition play (e : Env) (events : list Event) : option World :=
  foldl (λ w ev, w ≫= λ w, step w ev) (Some (initialWorld e)) events.

(** A run: the component mounts in a browser that stores a collection of
    two items, the first item is toggled, a text is typed and added. *)
Definition sampleEnv : Env :=
  browser (Some (JSON_stringify (todos_to_json [milk; dog]))) 5000.

Definition sampleRun : list Event :=
  [Mount; User (ToggleRow (js "a1")); User (ChangeInput (js " Feed cat"));
   User (ClickAdd (uuid (js "c3")))].

Definition sampleWorld : World :=
  default (initialWorld sampleEnv) (play sampleEnv sampleRun).

(** ** Vocabulary of the statements *)

(** A text that is empty or made of white space only. *)
Definition blank (s : list N) : Prop := Forall (λ c, isWhiteSpace c = true) s.

(** The item with its completion flag flipped, as [toggleTodo] rebuilds it. *)
Definition flipped (t : Todo) : Todo :=
  {| id := id t; text := text t; completed := negb (completed t) |}.

(** ** The controls a render offers *)

#[global] Instance Todo_eq_dec : EqDecision Todo.
Proof. solve_decision. Defined.

(** The events a render with state [s] can receive.  The input, the Add
    button and the three filter buttons are always there.  A row is rendered
    for every item of [filteredTodos]; its checkbox is disabled while the
    item is the one being edited; its text, its Edit button and its Delete
    button are rendered when the item is not the one being edited, and the
    edit input when it is. *)
Definition offered (s : State) (u : UserEvent) : bool :=
  match u with
  | ChangeInput _ | ClickAdd _ | InputKeyDown _ _ | SelectFilter _ => true
  | ToggleRow i | DeleteRow i =>
      bool_decide (i ∈ id <$> filteredTodos s)
      && negb (bool_decide (editingId s = Some i))
  | DoubleClickText todo | ClickEdit todo =>
      bool_decide (todo ∈ filteredTodos s)
      && negb (bool_decide (editingId s = Some (id todo)))
  | ChangeEdit _ =>
      existsb (λ todo, bool_decide (editingId s = Some (id todo)))
        (filteredTodos s)
  | EditKeyDown _ i | EditBlur i =>
      bool_decide (i ∈ id <$> filteredTodos s)
      && bool_decide (editingId s = Some i)
  end.

(** The worlds the component reaches when every event comes from a control
    of the current render. *)
Inductive ui_reachable (e : Env) : World → Prop :=
| ui_reachable_init : ui_reachable e (initialWorld e)
| ui_reachable_mount w w' :
    ui_reachable e w → step w Mount = Some w' → ui_reachable e w'
| ui_reachable_event w u w' :
    ui_reachable e w → offered (view w) u = true →
    step w (User u) = Some w' → ui_reachable e w'.

(** ** More vocabulary *)

(** The store holds the collection the component shows. *)
Definition in_sync (w : World) : Prop :=
  loadTodosFromStorage (env w) = Ok (todos_to_json (todos (view w))).

(** A text as [addTodo] and [saveEdit] store it: not empty, with no white
    space at either end. *)
Definition trimmed (s : list N) : Prop := s ≠ [] ∧ trim s = s.

(** The ids of a collection, in its order. *)
Definition ids (C : list Todo) : list (list N) := id <$> C.

(** A text that does not start with white space. *)
Definition starts_clean (s : list N) : Prop :=
  match s with
  | [] => True
  | c :: _ => isWhiteSpace c = false
  end.

(** The collections [toggleTodo], [saveEdit] and [deleteTodo] pass to
    [setTodos], as functions of the collection they read. *)
Definition toggled (i : list N) (C : list Todo) : list Todo :=
  (λ todo, if decide (id todo = i) then flipped todo else todo) <$> C.

Definition retexted (i v : list N) (C : list Todo) : list Todo :=
  (λ todo,
    if decide (id todo = i)
    then {| id := id todo; text := v; completed := completed todo |}
    else todo) <$> C.

Definition without (i : list N) (C : list Todo) : list Todo :=
  filter (λ todo, id todo ≠ i) C.

(** The item being edited is in the collection and is not completed. *)
Definition edit_target_ok (s : State) : Prop :=
  ∀ i, editingId s = Some i →
       ∃ todo, todo ∈ todos s ∧ id todo = i ∧ completed todo = false.

(** A browser whose storage area also holds an entry of another script. *)
Definition sharedBrowser : Env :=
  {| window_defined := true;
     localStorage :=
       Some {| items := <[js "theme" := js "dark"]> {[ STORAGE_KEY := js "[]" ]};
               quota := 5000 |} |}.

(** The sample run after its first step, the same with the first item
    being edited, and a platform without [crypto.randomUUID]. *)
Definition sampleMounted : World :=
  default (initialWorld sampleEnv) (play sampleEnv [Mount]).

Definition sampleEditing : World :=
  default (initialWorld sampleEnv)
    (play sampleEnv [Mount; User (ClickEdit milk)]).

Definition fallback (now : N) : IdSource :=
  {| crypto_randomUUID := None; Date_now := now;
     Math_random_36_1 := js "0.4fzyo82mvyr"; Math_random_36_2 := js "0.k2j9x" |}.

(** * Properties *)

(** ** Trimming *)

Lemma trimStart_blank s : blank s → trimStart s = [].
Proof.
  induction 1 as [|c r Hc _ IH]; simpl; [done|]. by rewrite Hc.
Qed.

Lemma trimStart_nil_blank s : trimStart s = [] → blank s.
Proof.
  induction s as [|c r IH]; simpl; [constructor|].
  destruct (isWhiteSpace c) eqn:Hc; [|done].
  intros Hr. constructor; [done | by apply IH].
Qed.

Lemma trim_blank s : blank s → trim s = [].
Proof.
  intros H. unfold trim, trimEnd. by rewrite (trimStart_blank s H).
Qed.

Lemma trim_nil_blank s : trim s = [] → blank s.
Proof.
  unfold trim, trimEnd. intros H.
  assert (Hr : trimStart (reverse (trimStart s)) = []).
  { by rewrite <- (reverse_involutive (trimStart _)), H. }
  apply trimStart_nil_blank in Hr.
  assert (Hs : blank (trimStart s)).
  { unfold blank in *. rewrite Forall_forall in *.
    intros c Hc. apply Hr. by apply elem_of_reverse. }
  clear H Hr. induction s as [|c r IH]; simpl in *; [constructor|].
  destruct (isWhiteSpace c) eqn:Hc.
  - constructor; [done | by apply IH].
  - inversion Hs; congruence.
Qed.

Lemma truthy_trim_false s : truthy (trim s) = false ↔ blank s.
Proof.
  split.
  - intros H. apply trim_nil_blank. by destruct (trim s).
  - intros H. by rewrite trim_blank.
Qed.

Lemma truthy_true s : s ≠ [] → truthy s = true.
Proof. by destruct s. Qed.

(** ** Lists of todos *)

Section collection.
Implicit Types (C : list Todo) (i : list N) (t : Todo).

Lemma toggle_twice i C :
  (λ t, if decide (id t = i) then flipped t else t)
    <$> ((λ t, if decide (id t = i) then flipped t else t) <$> C) = C.
Proof.
  rewrite <- list_fmap_compose. rewrite <- (list_fmap_id C) at 2.
  apply list_fmap_ext. intros _ [ti tt tc] _. simpl.
  destruct (decide (ti = i)) as [->|Hne]; simpl.
  - rewrite decide_True by done. unfold flipped. simpl.
    by rewrite negb_involutive.
  - by rewrite decide_False.
Qed.

Lemma update_absent (f : Todo → Todo) i C :
  i ∉ id <$> C →
  (λ t, if decide (id t = i) then f t else t) <$> C = C.
Proof.
  intros Hi. rewrite <- (list_fmap_id C) at 2.
  apply list_fmap_ext. intros k t Hk. simpl.
  destruct (decide (id t = i)) as [<-|]; [|done].
  exfalso. apply Hi. apply list_elem_of_fmap. exists t. split; [done|].
  by eapply list_elem_of_lookup_2.
Qed.

Lemma remove_absent i C :
  i ∉ id <$> C → filter (λ t, id t ≠ i) C = C.
Proof.
  induction C as [|t C IH]; [done|].
  rewrite fmap_cons, not_elem_of_cons. intros [Hne Hi].
  rewrite filter_cons_True by congruence. by rewrite IH.
Qed.

Lemma active_length_app C t :
  completed t = false →
  length (filter (λ t, negb (completed t)) (C ++ [t]))
  = (length (filter (λ t, negb (completed t)) C) + 1)%nat.
Proof.
  intros Ht. rewrite filter_app, length_app.
  rewrite filter_cons_True by (by rewrite Ht). done.
Qed.
End collection.

(** ** The collection engine *)

(** C4: when the trimmed input is not empty, [addTodo] appends exactly one
    item at the end of the collection, with the trimmed text,
    [completed = false] and the id [generateId] returned; the length and the
    active count grow by one.  Both variants of the component. *)
Theorem addTodo_appends (g : IdSource) (s : State) (b : Basic.State) :
  (trim (inputValue s) ≠ [] →
     todos (run (addTodo g) s)
     = todos s ++ [ {| id := generateId g; text := trim (inputValue s);
                       completed := false |} ]
     ∧ length (todos (run (addTodo g) s)) = (length (todos s) + 1)%nat
     ∧ activeCount (run (addTodo g) s) = (activeCount s + 1)%nat)
  ∧ (trim (Basic.inputValue b) ≠ [] →
     Basic.todos (Basic.run (Basic.addTodo g) b)
     = Basic.todos b ++ [ {| id := generateId g;
                             text := trim (Basic.inputValue b);
                             completed := false |} ]
     ∧ length (Basic.todos (Basic.run (Basic.addTodo g) b))
       = (length (Basic.todos b) + 1)%nat
     ∧ Basic.activeCount (Basic.run (Basic.addTodo g) b)
       = (Basic.activeCount b + 1)%nat).
Proof.
  split; intros Hne.
  - unfold run, addTodo, activeCount. rewrite (truthy_true _ Hne). simpl.
    split_and!; [done | by rewrite length_app | by apply active_length_app].
  - unfold Basic.run, Basic.addTodo, Basic.activeCount.
    rewrite (truthy_true _ Hne). simpl.
    split_and!; [done | by rewrite length_app | by apply active_length_app].
Qed.

(** C5: toggling the same id twice gives the collection back (for every id,
    so in particular for the id of an item of the collection), and toggling
    an id that matches no item leaves the collection as it is.  Both
    variants of the component. *)
Theorem toggleTodo_involution (i : list N) (s : State) (b : Basic.State) :
  todos (run (toggleTodo i) (run (toggleTodo i) s)) = todos s
  ∧ (i ∉ id <$> todos s → todos (run (toggleTodo i) s) = todos s)
  ∧ Basic.todos (Basic.run (Basic.toggleTodo i) (Basic.run (Basic.toggleTodo i) b))
    = Basic.todos b
  ∧ (i ∉ id <$> Basic.todos b →
     Basic.todos (Basic.run (Basic.toggleTodo i) b) = Basic.todos b).
Proof.
  split_and!.
  - apply (toggle_twice i (todos s)).
  - intros Hi. apply (update_absent flipped i (todos s) Hi).
  - apply (toggle_twice i (Basic.todos b)).
  - intros Hi. apply (update_absent flipped i (Basic.todos b) Hi).
Qed.

Section views.
Implicit Types (C : list Todo) (x : Todo).

Lemma view_all C : filter (λ x, (true : bool)) C = C.
Proof.
  induction C as [|x C IH]; [done|].
  by rewrite filter_cons_True, IH.
Qed.

Lemma view_partition C :
  filter (λ x, negb (completed x)) C ++ filter (λ x, completed x) C ≡ₚ C.
Proof.
  induction C as [|x C IH]; [done|].
  destruct (completed x) eqn:Hx.
  - rewrite filter_cons_False by (rewrite Hx; cbn; tauto).
    rewrite (filter_cons_True (λ x, completed x)) by (rewrite Hx; cbn; tauto).
    rewrite <- Permutation_middle. by constructor.
  - rewrite filter_cons_True by (rewrite Hx; cbn; tauto).
    rewrite (filter_cons_False (λ x, completed x)) by (rewrite Hx; cbn; tauto).
    simpl. by constructor.
Qed.

Lemma view_active_spec C x :
  x ∈ filter (λ x, negb (completed x)) C ↔ x ∈ C ∧ completed x = false.
Proof.
  rewrite list_elem_of_filter. destruct (completed x); cbn; intuition congruence.
Qed.

Lemma view_completed_spec C x :
  x ∈ filter (λ x, completed x) C ↔ x ∈ C ∧ completed x = true.
Proof.
  rewrite list_elem_of_filter. destruct (completed x); cbn; intuition congruence.
Qed.
End views.

(** C6: under the filter "all" the view is the collection itself; under
    "active" it holds exactly the items with [completed = false], under
    "completed" exactly those with [completed = true]; the two views
    together are a rearrangement of the collection and share no item; and
    every view lists its items in the order of the collection.  Both
    variants of the component. *)
Theorem filteredTodos_partition (s : State) (b : Basic.State) :
  (filteredTodos (perform s (setFilter Filter_all)) = todos s
   ∧ (∀ x, x ∈ filteredTodos (perform s (setFilter Filter_active))
           ↔ x ∈ todos s ∧ completed x = false)
   ∧ (∀ x, x ∈ filteredTodos (perform s (setFilter Filter_completed))
           ↔ x ∈ todos s ∧ completed x = true)
   ∧ filteredTodos (perform s (setFilter Filter_active))
     ++ filteredTodos (perform s (setFilter Filter_completed)) ≡ₚ todos s
   ∧ (∀ x, ¬ (x ∈ filteredTodos (perform s (setFilter Filter_active))
              ∧ x ∈ filteredTodos (perform s (setFilter Filter_completed))))
   ∧ (∀ f, filteredTodos (perform s (setFilter f)) `sublist_of` todos s))
  ∧ (Basic.filteredTodos (Basic.perform b (Basic.setFilter Filter_all))
     = Basic.todos b
   ∧ (∀ x, x ∈ Basic.filteredTodos (Basic.perform b (Basic.setFilter Filter_active))
           ↔ x ∈ Basic.todos b ∧ completed x = false)
   ∧ (∀ x, x ∈ Basic.filteredTodos
                 (Basic.perform b (Basic.setFilter Filter_completed))
           ↔ x ∈ Basic.todos b ∧ completed x = true)
   ∧ Basic.filteredTodos (Basic.perform b (Basic.setFilter Filter_active))
     ++ Basic.filteredTodos (Basic.perform b (Basic.setFilter Filter_completed))
     ≡ₚ Basic.todos b
   ∧ (∀ x, ¬ (x ∈ Basic.filteredTodos
                    (Basic.perform b (Basic.setFilter Filter_active))
              ∧ x ∈ Basic.filteredTodos
                      (Basic.perform b (Basic.setFilter Filter_completed))))
   ∧ (∀ f, Basic.filteredTodos (Basic.perform b (Basic.setFilter f))
           `sublist_of` Basic.todos b)).
Proof.
  split.
  - unfold filteredTodos. simpl. split_and!.
    + apply view_all.
    + apply view_active_spec.
    + apply view_completed_spec.
    + apply view_partition.
    + intros x [Ha Hc]. apply view_active_spec in Ha.
      apply view_completed_spec in Hc. destruct Ha, Hc. congruence.
    + intros f. apply sublist_filter.
  - unfold Basic.filteredTodos. simpl. split_and!.
    + apply view_all.
    + apply view_active_spec.
    + apply view_completed_spec.
    + apply view_partition.
    + intros x [Ha Hc]. apply view_active_spec in Ha.
      apply view_completed_spec in Hc. destruct Ha, Hc. congruence.
    + intros f. apply sublist_filter.
Qed.

(** C7: an input that is empty or made of white space only is dropped
    without a trace: [addTodo] calls no setter, so the whole state stays as
    it is, and [saveEdit] leaves the collection as it is for every id (it
    only closes the edit session).  No handler has an error outcome. *)
Theorem blank_input_rejected (g : IdSource) (i : list N) (s : State)
    (b : Basic.State) :
  (blank (inputValue s) → addTodo g s = [] ∧ run (addTodo g) s = s)
  ∧ (blank (editValue s) →
     todos (run (saveEdit i) s) = todos s
     ∧ run (saveEdit i) s = run cancelEdit s)
  ∧ (blank (Basic.inputValue b) →
     Basic.addTodo g b = [] ∧ Basic.run (Basic.addTodo g) b = b).
Proof.
  split_and!; intros Hb; apply truthy_trim_false in Hb.
  - unfold run, addTodo. by rewrite Hb.
  - unfold run, saveEdit. by rewrite Hb.
  - unfold Basic.run, Basic.addTodo. by rewrite Hb.
Qed.

(** C8: deleting the id of the item [addTodo] has just appended gives the
    collection back, provided the generated id is not the id of an item
    already in the collection.  Both variants of the component. *)
Theorem deleteTodo_addTodo (g : IdSource) (s : State) (b : Basic.State) :
  (trim (inputValue s) ≠ [] → generateId g ∉ id <$> todos s →
     todos (run (deleteTodo (generateId g)) (run (addTodo g) s)) = todos s)
  ∧ (trim (Basic.inputValue b) ≠ [] → generateId g ∉ id <$> Basic.todos b →
     Basic.todos (Basic.run (Basic.deleteTodo (generateId g))
                    (Basic.run (Basic.addTodo g) b))
     = Basic.todos b).
Proof.
  split; intros Hne Hfresh.
  - unfold run at 2. unfold addTodo. rewrite (truthy_true _ Hne).
    unfold run, deleteTodo. simpl.
    rewrite filter_app, filter_cons_False, filter_nil, app_nil_r by naive_solver.
    by apply remove_absent.
  - unfold Basic.run at 2. unfold Basic.addTodo. rewrite (truthy_true _ Hne).
    unfold Basic.run, Basic.deleteTodo. simpl.
    rewrite filter_app, filter_cons_False, filter_nil, app_nil_r by naive_solver.
    by apply remove_absent.
Qed.

(** ** Edit sessions *)

(** C9: an edit session starts only on an item that is not completed.  On a
    completed item both controls that lead to [startEdit] (the double click
    on the text, the Edit button) call no setter and the state stays as it
    is; on an item that is not completed both run [startEdit], which enters
    the session [Editing (id, text)] and touches nothing else; and no other
    event of the component makes an id the one being edited. *)
Theorem startEdit_only_when_not_completed (todo : Todo) (u : UserEvent)
    (i : list N) (s : State) :
  (completed todo = true →
     run (text_onDoubleClick todo) s = s ∧ run (editButton_onClick todo) s = s)
  ∧ (completed todo = false →
     run (text_onDoubleClick todo) s = run (startEdit todo) s
     ∧ run (editButton_onClick todo) s = run (startEdit todo) s
     ∧ editingId (run (startEdit todo) s) = Some (id todo)
     ∧ editValue (run (startEdit todo) s) = text todo
     ∧ todos (run (startEdit todo) s) = todos s)
  ∧ (editingId (run (handler u) s) = Some i → editingId s ≠ Some i →
     ∃ item, (u = DoubleClickText item ∨ u = ClickEdit item)
             ∧ completed item = false ∧ id item = i
             ∧ editValue (run (handler u) s) = text item).
Proof.
  split_and!.
  - intros Hc. unfold run, text_onDoubleClick, editButton_onClick.
    rewrite Hc. simpl. by destruct s.
  - intros Hc. unfold run, text_onDoubleClick, editButton_onClick.
    by rewrite Hc.
  - unfold run.
    destruct u as [v|g|g key|f|j|j|item|item|v|key j|j]; cbn [handler];
      unfold handleKeyDown, handleEditKeyDown, addTodo, toggleTodo, deleteTodo,
        text_onDoubleClick, editButton_onClick, saveEdit, cancelEdit, startEdit;
      repeat case_match; cbn; intros Hi Hs; try done;
      simplify_eq; exists item; split_and!; eauto;
      by destruct (completed item).
Qed.

(** C10: committing an edit against an id that matches no item leaves the
    collection as it is, whatever the scratch text; the edit session ends
    ([editingId] is null and the scratch text is empty), in particular when
    the trimmed text is not empty. *)
Theorem saveEdit_absent (i : list N) (s : State) :
  i ∉ id <$> todos s →
  todos (run (saveEdit i) s) = todos s
  ∧ (trim (editValue s) ≠ [] →
     editingId (run (saveEdit i) s) = None
     ∧ editValue (run (saveEdit i) s) = [])
  ∧ editingId (run (saveEdit i) s) = None
  ∧ editValue (run (saveEdit i) s) = [].
Proof.
  intros Hi. unfold run, saveEdit.
  destruct (truthy (trim (editValue s))); simpl; [|done].
  split_and!; try done.
  apply (update_absent
           (λ t, {| id := id t; text := trim (editValue s);
                    completed := completed t |}) i (todos s) Hi).
Qed.

(** ** [JSON.parse] after [JSON.stringify] *)

Ltac case_compare :=
  repeat match goal with
    | |- context [N.eqb ?a ?b] => destruct (N.eqb_spec a b)
    | |- context [N.ltb ?a ?b] => destruct (N.ltb_spec a b)
    | |- context [N.leb ?a ?b] => destruct (N.leb_spec a b)
    end.

Lemma hex_value_digit d : d < 16 → hex_value (hex_digit d) = Some d.
Proof.
  intros Hd. unfold hex_value, hex_digit, is_digit.
  case_compare; simpl; try lia; f_equal; lia.
Qed.

Lemma hex_digits_value c :
  c < 65536 →
  ((c / 4096 * 16 + (c / 256) mod 16) * 16 + (c / 16) mod 16) * 16 + c mod 16 = c.
Proof.
  intros Hc.
  change 4096 with (16 * 16 * 16). change 256 with (16 * 16).
  rewrite <- !N.Div0.div_div.
  pose proof (N.div_mod c 16 ltac:(done)) as H1.
  pose proof (N.div_mod (c / 16) 16 ltac:(done)) as H2.
  pose proof (N.div_mod (c / 16 / 16) 16 ltac:(done)) as H3.
  assert (c / 16 / 16 / 16 < 16).
  { rewrite !N.Div0.div_div. apply N.Div0.div_lt_upper_bound. simpl. lia. }
  pose proof (N.mod_small (c / 16 / 16 / 16) 16) as H4.
  lia.
Qed.

Lemma parse_unicode_escape c s :
  c < 65536 →
  parse_chars (unicode_escape c ++ s) = parsed_map (cons c) (parse_chars s).
Proof.
  intros Hc. unfold unicode_escape. cbn [app parse_chars].
  change (ch "\" =? quote) with false. change (ch "\" =? ch "\") with true.
  change (ch "u" =? ch "u") with true. cbn iota.
  rewrite !hex_value_digit.
  - by rewrite hex_digits_value.
  - apply N.mod_lt. done.
  - apply N.mod_lt. done.
  - apply N.mod_lt. done.
  - apply N.Div0.div_lt_upper_bound. simpl. lia.
Qed.

Lemma parse_chars_raw c s :
  c ≠ quote → c ≠ ch "\" → 32 ≤ c →
  parse_chars (c :: s) = parsed_map (cons c) (parse_chars s).
Proof.
  intros H1 H2 H3. cbn [parse_chars].
  destruct (N.eqb_spec c quote); [done|].
  destruct (N.eqb_spec c (ch "\")); [done|].
  destruct (N.ltb_spec c 32); [lia|done].
Qed.

Lemma parse_chars_closing rest : parse_chars (quote :: rest) = Parsed [] rest.
Proof. done. Qed.

Lemma parse_quote_code_point c s :
  parse_chars (quote_code_point c ++ s) = parsed_map (cons c) (parse_chars s).
Proof.
  unfold quote_code_point.
  destruct (N.eqb_spec c 8) as [->|]; [done|].
  destruct (N.eqb_spec c 9) as [->|]; [done|].
  destruct (N.eqb_spec c 10) as [->|]; [done|].
  destruct (N.eqb_spec c 12) as [->|]; [done|].
  destruct (N.eqb_spec c 13) as [->|]; [done|].
  destruct (N.eqb_spec c quote) as [->|]; [done|].
  destruct (N.eqb_spec c (ch "\")) as [->|]; [done|].
  destruct (N.ltb_spec c 32).
  - apply parse_unicode_escape. lia.
  - by apply parse_chars_raw.
Qed.

Lemma parse_quote_chars s rest :
  parse_chars (quote_chars s ++ quote :: rest) = Parsed s rest.
Proof.
  remember (length s) as n eqn:Hn. revert s Hn.
  induction n as [n IH] using lt_wf_ind. intros s Hn.
  destruct s as [|c r]; [done|]. cbn [quote_chars].
  destruct (is_leading_surrogate c) eqn:Hlead.
  - apply andb_prop in Hlead as [Hlo%N.leb_le Hhi%N.leb_le].
    destruct r as [|d r'].
    + rewrite parse_unicode_escape by lia. by rewrite parse_chars_closing.
    + destruct (is_trailing_surrogate d) eqn:Htrail.
      * apply andb_prop in Htrail as [Hlo'%N.leb_le Hhi'%N.leb_le].
        cbn [app]. rewrite !parse_chars_raw by (unfold quote, ch; simpl; lia).
        rewrite (IH (length r')) by (simpl in *; lia || done). done.
      * rewrite <- app_assoc, parse_unicode_escape by lia.
        rewrite (IH (length (d :: r'))) by (simpl in *; lia || done). done.
  - destruct (is_trailing_surrogate c) eqn:Htrail.
    + apply andb_prop in Htrail as [Hlo%N.leb_le Hhi%N.leb_le].
      rewrite <- app_assoc, parse_unicode_escape by lia.
      rewrite (IH (length r)) by (simpl in *; lia || done). done.
    + rewrite <- app_assoc, parse_quote_code_point.
      rewrite (IH (length r)) by (simpl in *; lia || done). done.
Qed.

Lemma parse_value_string f s rest :
  parse_value (S f) (QuoteJSONString s ++ rest) = Parsed (JString s) rest.
Proof.
  unfold QuoteJSONString. cbn [app parse_value skip_ws].
  change (is_json_ws quote) with false. cbn iota.
  change (quote =? quote) with true. cbn iota.
  rewrite <- app_assoc. cbn [app]. by rewrite parse_quote_chars.
Qed.

Lemma parse_value_bool f b rest :
  parse_value (S f) (JSON_stringify (JBool b) ++ rest) = Parsed (JBool b) rest.
Proof. by destruct b. Qed.

Section containers.
Context (f : nat) (text : list N) (v : json).

Lemma parse_members_last k rest :
  parse_value f (text ++ ch "}" :: rest) = Parsed v (ch "}" :: rest) →
  parse_members (S f) (QuoteJSONString k ++ ch ":" :: text ++ ch "}" :: rest)
  = Parsed [(k, v)] rest.
Proof.
  intros Hv. unfold QuoteJSONString. cbn [app parse_members skip_ws].
  change (is_json_ws quote) with false. cbn iota.
  change (quote =? quote) with true. cbn iota.
  rewrite <- app_assoc. cbn [app]. rewrite parse_quote_chars.
  cbn [skip_ws]. change (is_json_ws (ch ":")) with false. cbn iota.
  change (ch ":" =? ch ":") with true. cbn iota. by rewrite Hv.
Qed.

Lemma parse_members_more k more ms rest :
  parse_value f (text ++ ch "," :: more) = Parsed v (ch "," :: more) →
  parse_members f more = Parsed ms rest →
  parse_members (S f) (QuoteJSONString k ++ ch ":" :: text ++ ch "," :: more)
  = Parsed ((k, v) :: ms) rest.
Proof.
  intros Hv Hms. unfold QuoteJSONString. cbn [app parse_members skip_ws].
  change (is_json_ws quote) with false. cbn iota.
  change (quote =? quote) with true. cbn iota.
  rewrite <- app_assoc. cbn [app]. rewrite parse_quote_chars.
  cbn [skip_ws]. change (is_json_ws (ch ":")) with false. cbn iota.
  change (ch ":" =? ch ":") with true. cbn iota. rewrite Hv.
  cbn [skip_ws]. change (is_json_ws (ch ",")) with false. cbn iota.
  change (ch "," =? ch ",") with true. cbn iota. by rewrite Hms.
Qed.

Lemma parse_elements_last rest :
  parse_value f (text ++ ch "]" :: rest) = Parsed v (ch "]" :: rest) →
  parse_elements (S f) (text ++ ch "]" :: rest) = Parsed [v] rest.
Proof. intros Hv. cbn [parse_elements]. by rewrite Hv. Qed.

Lemma parse_elements_more more vs rest :
  parse_value f (text ++ ch "," :: more) = Parsed v (ch "," :: more) →
  parse_elements f more = Parsed vs rest →
  parse_elements (S f) (text ++ ch "," :: more) = Parsed (v :: vs) rest.
Proof.
  intros Hv Hvs. cbn [parse_elements]. rewrite Hv.
  cbn [skip_ws]. change (is_json_ws (ch ",")) with false. cbn iota.
  change (ch "," =? ch ",") with true. cbn iota. by rewrite Hvs.
Qed.
End containers.


Lemma parse_value_object f k r :
  parse_value (S f) (ch "{" :: QuoteJSONString k ++ r)
  = parsed_map JObject (parse_members f (QuoteJSONString k ++ r)).
Proof. done. Qed.

Lemma stringify_todo t rest :
  JSON_stringify (todo_to_json t) ++ rest
  = ch "{"
    :: QuoteJSONString (js "id") ++ ch ":"
    :: QuoteJSONString (id t) ++ ch ","
    :: QuoteJSONString (js "text") ++ ch ":"
    :: QuoteJSONString (text t) ++ ch ","
    :: QuoteJSONString (js "completed") ++ ch ":"
    :: JSON_stringify (JBool (completed t)) ++ ch "}" :: rest.
Proof.
  unfold todo_to_json. cbn [JSON_stringify fmap list_fmap join fst snd].
  repeat first [rewrite <- app_assoc | progress cbn [app]]. done.
Qed.

Lemma parse_todo f t rest :
  parse_value (5 + f) (JSON_stringify (todo_to_json t) ++ rest)
  = Parsed (todo_to_json t) rest.
Proof.
  rewrite stringify_todo. change (5 + f)%nat with (S (S (S (S (S f))))).
  rewrite parse_value_object.
  erewrite parse_members_more; [done | apply parse_value_string |].
  erewrite parse_members_more; [done | apply parse_value_string |].
  erewrite parse_members_last; [done | apply parse_value_bool].
Qed.

Lemma parse_value_array f c r :
  is_json_ws c = false → c ≠ ch "]" →
  parse_value (S f) (ch "[" :: c :: r)
  = parsed_map JArray (parse_elements f (c :: r)).
Proof.
  intros Hws Hc. cbn [parse_value skip_ws].
  change (is_json_ws (ch "[")) with false. cbn iota.
  change (ch "[" =? quote) with false. change (ch "[" =? ch "[") with true.
  cbn iota. cbn [skip_ws]. rewrite Hws. by destruct (N.eqb_spec c (ch "]")).
Qed.

Lemma parse_todo_elements C t f rest :
  parse_elements (6 + length C + f)
    (join [ch ","] (JSON_stringify <$> (todo_to_json <$> t :: C))
     ++ ch "]" :: rest)
  = Parsed (todo_to_json <$> t :: C) rest.
Proof.
  revert t. induction C as [|t' C IH]; intros t.
  - cbn [fmap list_fmap join length]. apply parse_elements_last.
    apply (parse_todo f).
  - change (join [ch ","] (JSON_stringify <$> (todo_to_json <$> t :: t' :: C)))
      with (JSON_stringify (todo_to_json t) ++ [ch ","]
            ++ join [ch ","] (JSON_stringify <$> (todo_to_json <$> t' :: C))).
    rewrite <- !app_assoc. cbn [app].
    change (6 + length (t' :: C) + f)%nat
      with (S (5 + S (length C + f)))%nat.
    rewrite !fmap_cons.
    apply parse_elements_more; [apply parse_todo | apply IH].
Qed.

Lemma stringify_todo_length t :
  (1 ≤ length (JSON_stringify (todo_to_json t)))%nat.
Proof.
  pose proof (stringify_todo t []) as H. rewrite app_nil_r in H.
  rewrite H. cbn [length]. lia.
Qed.

Lemma length_join_todos C :
  (length C ≤ length (join [ch ","] (JSON_stringify <$> (todo_to_json <$> C))))%nat.
Proof.
  induction C as [|t C IH]; [done|].
  pose proof (stringify_todo_length t) as Ht.
  destruct C as [|t' C].
  - cbn [fmap list_fmap join length]. lia.
  - change (join [ch ","] (JSON_stringify <$> (todo_to_json <$> t :: t' :: C)))
      with (JSON_stringify (todo_to_json t) ++ [ch ","]
            ++ join [ch ","] (JSON_stringify <$> (todo_to_json <$> t' :: C))).
    rewrite !length_app. cbn [length] in *. lia.
Qed.

Lemma join_todos_head t C rest :
  ∃ r, join [ch ","] (JSON_stringify <$> (todo_to_json <$> t :: C)) ++ rest
       = ch "{" :: r.
Proof.
  destruct C as [|t' C].
  - cbn [fmap list_fmap join]. rewrite stringify_todo. eauto.
  - change (join [ch ","] (JSON_stringify <$> (todo_to_json <$> t :: t' :: C)))
      with (JSON_stringify (todo_to_json t) ++ [ch ","]
            ++ join [ch ","] (JSON_stringify <$> (todo_to_json <$> t' :: C))).
    rewrite <- app_assoc, stringify_todo. eauto.
Qed.

Lemma parse_todos_array C f rest :
  parse_value (7 + length C + f) (JSON_stringify (todos_to_json C) ++ rest)
  = Parsed (todos_to_json C) rest.
Proof.
  destruct C as [|t C]; [done|].
  unfold todos_to_json. cbn [JSON_stringify].
  repeat first [rewrite <- app_assoc | progress cbn [app]].
  destruct (join_todos_head t C (ch "]" :: rest)) as [r Hr].
  replace (7 + length (t :: C) + f)%nat with (S (6 + length C + S f))%nat
    by (simpl; lia).
  rewrite Hr, parse_value_array by done. rewrite <- Hr.
  by rewrite parse_todo_elements.
Qed.

Lemma JSON_parse_stringify_todos C :
  JSON_parse (JSON_stringify (todos_to_json C)) = Ok (todos_to_json C).
Proof.
  destruct C as [|t C]; [done|]. unfold JSON_parse.
  set (blob := JSON_stringify (todos_to_json (t :: C))).
  assert (Hlen : (length (t :: C) + 2 ≤ length blob)%nat).
  { unfold blob, todos_to_json. cbn [JSON_stringify length].
    rewrite length_app. pose proof (length_join_todos (t :: C)) as H.
    cbn [length] in *. lia. }
  replace (2 * length blob + 2)%nat
    with (7 + length (t :: C) + (2 * length blob - length (t :: C) - 5))%nat
    by (cbn [length] in *; lia).
  rewrite <- (app_nil_r blob) at 2. unfold blob.
  by rewrite parse_todos_array.
Qed.

(** ** The store adapter *)

Lemma todo_of_to_json t : todo_of_json (todo_to_json t) = Some t.
Proof. by destruct t. Qed.

Lemma todos_of_to_json C : todos_of_json (todos_to_json C) = Some C.
Proof.
  unfold todos_of_json, todos_to_json.
  induction C as [|t C IH]; [done|].
  rewrite fmap_cons. cbn [mapM]. rewrite todo_of_to_json, IH. done.
Qed.


Lemma localStorage_setItem_Ok env key value env' :
  localStorage_setItem env key value = Ok env' →
  window_defined env' = window_defined env
  ∧ localStorage_getItem env' key = Ok (Some value).
Proof.
  unfold localStorage_setItem, localStorage_getItem.
  destruct (localStorage env) as [st|]; [|done].
  destruct (usage _ <=? quota st); [|done].
  intros [= <-]. simpl. by rewrite lookup_insert_eq.
Qed.

Lemma truthy_stringify_todos C : truthy (JSON_stringify (todos_to_json C)) = true.
Proof. done. Qed.

(** C1, as the code has it: when [window] is defined and [localStorage]
    takes the write, loading after saving a collection gives the array of
    its items back, in their order and with the three fields of each; the
    array read as a collection is the collection that was saved. *)
Theorem load_after_save (env env' : Env) (C : list Todo) :
  window_defined env = true →
  localStorage_setItem env STORAGE_KEY (JSON_stringify (todos_to_json C)) = Ok env' →
  saveTodosToStorage env C = Ok env'
  ∧ loadTodosFromStorage env' = Ok (todos_to_json C)
  ∧ save_then_load env C = Ok (todos_to_json C)
  ∧ todos_of_json (todos_to_json C) = Some C.
Proof.
  intros Hwin Hset.
  assert (Hsave : saveTodosToStorage env C = Ok env').
  { unfold saveTodosToStorage. by rewrite Hwin, Hset. }
  assert (Hload : loadTodosFromStorage env' = Ok (todos_to_json C)).
  { apply localStorage_setItem_Ok in Hset as [Hwin' Hget].
    unfold loadTodosFromStorage. rewrite Hwin', Hwin, Hget.
    cbn [negb result_bind]. 
    by rewrite truthy_stringify_todos, JSON_parse_stringify_todos. }
  split_and!; [done | done | | apply todos_of_to_json].
  unfold save_then_load. by rewrite Hsave.
Qed.


(** ** The coordinator *)






(** ** The recursion budget of [JSON_parse] is never used up *)

Lemma parsed_map_Parsed {A B} (f : A → B) p b r :
  parsed_map f p = Parsed b r → ∃ a, p = Parsed a r ∧ b = f a.
Proof. destruct p; intros [= <- <-]; eauto. Qed.

Lemma parsed_map_Exhausted {A B} (f : A → B) p :
  parsed_map f p = Exhausted → p = Exhausted.
Proof. by destruct p. Qed.

Lemma skip_ws_length s : (length (skip_ws s) ≤ length s)%nat.
Proof.
  induction s as [|c r IH]; [done|]. cbn [skip_ws].
  destruct (is_json_ws c); cbn [length]; lia.
Qed.

Lemma parse_chars_not_Exhausted s : parse_chars s ≠ Exhausted.
Proof.
  remember (length s) as n eqn:Hn. revert s Hn.
  induction n as [n IH] using lt_wf_ind. intros s Hn.
  destruct s as [|c r]; [done|]. cbn [parse_chars].
  repeat case_match; try done;
    intros ?%parsed_map_Exhausted;
    match goal with
    | H : parse_chars ?x = Exhausted |- _ =>
        apply (IH (length x)) in H; [done | subst; cbn [length]; lia | done]
    end.
Qed.

Lemma parse_chars_length s a r :
  parse_chars s = Parsed a r → (length r < length s)%nat.
Proof.
  remember (length s) as n eqn:Hn. revert s a r Hn.
  induction n as [n IH] using lt_wf_ind. intros s a r Hn.
  destruct s as [|c s']; [done|]. cbn [parse_chars].
  repeat case_match; try done;
    try (intros [= <- <-]; subst; cbn [length]; lia);
    intros (a' & Hp & _)%parsed_map_Parsed;
    match goal with
    | H : parse_chars ?x = Parsed _ _ |- _ =>
        apply (IH (length x)) in H; subst; cbn [length] in *; [lia | lia | done]
    end.
Qed.

Lemma digits_length s ds r : digits s = (ds, r) → (length r ≤ length s)%nat.
Proof.
  revert ds r. induction s as [|c s IH]; intros ds r; cbn [digits].
  - by intros [= <- <-].
  - destruct (is_digit c).
    + destruct (digits s) as [ds' r'] eqn:Hd. intros [= <- <-].
      specialize (IH _ _ eq_refl). cbn [length]. lia.
    + by intros [= <- <-].
Qed.

Lemma parse_number_length c s a r :
  parse_number (c :: s) = Parsed a r → (length r ≤ length s)%nat.
Proof.
  unfold parse_number, parse_int, parse_frac, parse_exp.
  repeat case_match; try done; simplify_eq; intros [= <- <-];
    repeat match goal with
      | H : digits _ = _ |- _ => apply digits_length in H
      end; cbn [length] in *; lia.
Qed.

Lemma parse_number_not_Exhausted s : parse_number s ≠ Exhausted.
Proof.
  unfold parse_number, parse_int, parse_frac, parse_exp.
  repeat case_match; simplify_eq; done.
Qed.

Lemma strip_prefix_length word s r :
  strip_prefix word s = Some r → (length r ≤ length s)%nat.
Proof.
  revert s. induction word as [|a word IH]; intros s; cbn [strip_prefix].
  - by intros [= <-].
  - destruct s as [|b s]; [done|]. destruct (a =? b); [|done].
    intros H%IH. cbn [length]. lia.
Qed.

Lemma parse_word_length word v s a r :
  parse_word word v s = Parsed a r → (length r ≤ length s)%nat.
Proof.
  unfold parse_word. destruct (strip_prefix word s) eqn:H; [|done].
  intros [= <- <-]. by eapply strip_prefix_length.
Qed.

Lemma parse_word_not_Exhausted word v s : parse_word word v s ≠ Exhausted.
Proof. unfold parse_word. by destruct (strip_prefix word s). Qed.

Ltac parsed_facts :=
  repeat match goal with
    | H : parsed_map _ _ = Parsed _ _ |- _ =>
        apply parsed_map_Parsed in H as (? & H & _)
    | H : parsed_map _ _ = Exhausted |- _ => apply parsed_map_Exhausted in H
    | H : parse_chars _ = Parsed _ _ |- _ => apply parse_chars_length in H
    | H : parse_chars _ = Exhausted |- _ =>
        by apply parse_chars_not_Exhausted in H
    | H : parse_number (_ :: _) = Parsed _ _ |- _ =>
        apply parse_number_length in H
    | H : parse_number _ = Exhausted |- _ =>
        by apply parse_number_not_Exhausted in H
    | H : parse_word _ _ _ = Parsed _ _ |- _ => apply parse_word_length in H
    | H : parse_word _ _ _ = Exhausted |- _ =>
        by apply parse_word_not_Exhausted in H
    | H : skip_ws ?s = _ |- _ =>
        let Hl := fresh "Hl" in
        pose proof (skip_ws_length s) as Hl; rewrite H in Hl; clear H
    end.

Lemma parse_lengths fuel :
  (∀ s v r, parse_value fuel s = Parsed v r → (length r < length s)%nat)
  ∧ (∀ s vs r, parse_elements fuel s = Parsed vs r → (length r < length s)%nat)
  ∧ (∀ s ms r, parse_members fuel s = Parsed ms r → (length r < length s)%nat).
Proof.
  induction fuel as [|fuel (IHv & IHe & IHm)]; [done|].
  split_and!; intros s a r H.
  - cbn [parse_value] in H. repeat case_match; simplify_eq; parsed_facts;
      repeat match goal with
        | H : parse_elements fuel _ = Parsed _ _ |- _ => apply IHe in H
        | H : parse_members fuel _ = Parsed _ _ |- _ => apply IHm in H
        end; cbn [length] in *; lia.
  - cbn [parse_elements] in H. repeat case_match; simplify_eq; parsed_facts;
      repeat match goal with
        | H : parse_value fuel _ = Parsed _ _ |- _ => apply IHv in H
        | H : parse_elements fuel _ = Parsed _ _ |- _ => apply IHe in H
        end; cbn [length] in *; lia.
  - cbn [parse_members] in H. repeat case_match; simplify_eq; parsed_facts;
      repeat match goal with
        | H : parse_value fuel _ = Parsed _ _ |- _ => apply IHv in H
        | H : parse_members fuel _ = Parsed _ _ |- _ => apply IHm in H
        end; cbn [length] in *; lia.
Qed.

Lemma parse_not_Exhausted fuel :
  (∀ s, (2 * length s + 1 ≤ fuel)%nat → parse_value fuel s ≠ Exhausted)
  ∧ (∀ s, (2 * length s + 2 ≤ fuel)%nat → parse_elements fuel s ≠ Exhausted)
  ∧ (∀ s, (2 * length s + 2 ≤ fuel)%nat → parse_members fuel s ≠ Exhausted).
Proof.
  induction fuel as [|fuel (IHv & IHe & IHm)]; [split_and!; intros; lia|].
  pose proof (parse_lengths fuel) as (Lv & Le & Lm).
  split_and!; intros s Hfuel H.
  - cbn [parse_value] in H. repeat case_match; simplify_eq; parsed_facts;
      match goal with
      | H : parse_elements fuel _ = Exhausted |- _ => apply IHe in H; [done|]
      | H : parse_members fuel _ = Exhausted |- _ => apply IHm in H; [done|]
      end; cbn [length] in *; lia.
  - cbn [parse_elements] in H. repeat case_match; simplify_eq; parsed_facts;
      repeat match goal with
        | H : parse_value fuel _ = Parsed _ _ |- _ => apply Lv in H
        end;
      match goal with
      | H : parse_value fuel _ = Exhausted |- _ => apply IHv in H; [done|]
      | H : parse_elements fuel _ = Exhausted |- _ => apply IHe in H; [done|]
      end; cbn [length] in *; lia.
  - cbn [parse_members] in H. repeat case_match; simplify_eq; parsed_facts;
      repeat match goal with
        | H : parse_value fuel _ = Parsed _ _ |- _ => apply Lv in H
        end;
      match goal with
      | H : parse_value fuel _ = Exhausted |- _ => apply IHv in H; [done|]
      | H : parse_members fuel _ = Exhausted |- _ => apply IHm in H; [done|]
      end; cbn [length] in *; lia.
Qed.

(** [JSON_parse] throws a syntax error or nothing: the budget it gives the
    parser is enough for every text. *)
Lemma JSON_parse_throws_SyntaxError text e :
  JSON_parse text = Throw e → e = SyntaxError.
Proof.
  unfold JSON_parse.
  destruct (parse_value _ text) as [v rest| |] eqn:H.
  - by destruct (skip_ws rest); intros [= <-].
  - by intros [= <-].
  - apply (proj1 (parse_not_Exhausted _)) in H; [done | lia].
Qed.

(** * Worked instances *)


(** On a server [saveTodosToStorage] writes nothing and
    [loadTodosFromStorage] returns the empty array: what was saved is not
    what is loaded. *)
Lemma save_on_server_is_lost :
  save_then_load server [milk] = Ok (JArray [])
  ∧ save_then_load server [milk] ≠ Ok (todos_to_json [milk]).
Proof. split; [reflexivity | discriminate]. Qed.

(** The same when the storage area has no room for the text. *)
Lemma save_over_quota_is_lost :
  save_then_load (browser None 10) [milk] = Ok (JArray []).
Proof. vm_compute. reflexivity. Qed.

Lemma load_after_save_witness :
  window_defined (browser None 5000) = true
  ∧ save_then_load (browser None 5000) [milk; dog]
    = Ok (todos_to_json [milk; dog]).
Proof.
  split; [reflexivity|].
  refine (proj1 (proj2 (proj2
    (load_after_save (browser None 5000) _ [milk; dog] _ _))));
    [reflexivity | vm_compute; reflexivity].
Defined.



Lemma sampleRun_log :
  log sampleWorld
  = [Loaded;
     Saved [milk; dog];
     Saved [flipped milk; dog];
     Saved [flipped milk; dog;
            {| id := js "c3"; text := js "Feed cat"; completed := false |}]].
Proof. vm_compute. reflexivity. Qed.


Lemma addTodo_appends_witness :
  trim (inputValue sampleState) ≠ []
  ∧ trim (Basic.inputValue sampleBasic) ≠ []
  ∧ length (todos (run (addTodo (uuid (js "c3"))) sampleState)) = 3%nat
  ∧ activeCount (run (addTodo (uuid (js "c3"))) sampleState) = 2%nat
  ∧ length (Basic.todos (Basic.run (Basic.addTodo (uuid (js "c3"))) sampleBasic))
    = 3%nat.
Proof.
  assert (H1 : trim (inputValue sampleState) ≠ []) by (vm_compute; discriminate).
  assert (H2 : trim (Basic.inputValue sampleBasic) ≠ [])
    by (vm_compute; discriminate).
  destruct (addTodo_appends (uuid (js "c3")) sampleState sampleBasic)
    as [Hfull Hbasic].
  destruct (Hfull H1) as (_ & Hlen & Hact).
  destruct (Hbasic H2) as (_ & Hlen' & _).
  split_and!; [exact H1 | exact H2 | exact Hlen | exact Hact | exact Hlen'].
Defined.

Lemma toggleTodo_involution_witness :
  (js "zz" ∉ id <$> todos sampleState)
  ∧ todos (run (toggleTodo (js "zz")) sampleState) = todos sampleState
  ∧ todos (run (toggleTodo (js "a1")) (run (toggleTodo (js "a1")) sampleState))
    = todos sampleState.
Proof.
  assert (H : js "zz" ∉ id <$> todos sampleState).
  { apply (bool_decide_unpack _). vm_compute. exact I. }
  destruct (toggleTodo_involution (js "zz") sampleState sampleBasic)
    as (_ & Habsent & _).
  destruct (toggleTodo_involution (js "a1") sampleState sampleBasic)
    as (Htwice & _).
  split_and!; [exact H | exact (Habsent H) | exact Htwice].
Defined.

Lemma blank_input_rejected_witness :
  blank (inputValue blankState)
  ∧ blank (editValue blankState)
  ∧ run (addTodo (uuid (js "c3"))) blankState = blankState
  ∧ todos (run (saveEdit (js "a1")) blankState) = todos blankState
  ∧ Basic.run (Basic.addTodo (uuid (js "c3"))) blankBasic = blankBasic.
Proof.
  assert (H1 : blank (inputValue blankState)) by (repeat constructor).
  assert (H2 : blank (editValue blankState)) by (repeat constructor).
  assert (H3 : blank (Basic.inputValue blankBasic)) by (repeat constructor).
  destruct (blank_input_rejected (uuid (js "c3")) (js "a1") blankState blankBasic)
    as (Hadd & Hedit & Hbasic).
  split_and!;
    [exact H1 | exact H2 | exact (proj2 (Hadd H1)) | exact (proj1 (Hedit H2))
    | exact (proj2 (Hbasic H3))].
Defined.

Lemma deleteTodo_addTodo_witness :
  trim (inputValue sampleState) ≠ []
  ∧ (generateId (uuid (js "c3")) ∉ id <$> todos sampleState)
  ∧ todos (run (deleteTodo (generateId (uuid (js "c3"))))
             (run (addTodo (uuid (js "c3"))) sampleState))
    = todos sampleState.
Proof.
  assert (H1 : trim (inputValue sampleState) ≠ []) by (vm_compute; discriminate).
  assert (H2 : generateId (uuid (js "c3")) ∉ id <$> todos sampleState).
  { apply (bool_decide_unpack _). vm_compute. exact I. }
  split_and!; [exact H1 | exact H2 |].
  exact (proj1 (deleteTodo_addTodo (uuid (js "c3")) sampleState sampleBasic) H1 H2).
Defined.

(** Without a fresh id the round trip fails: deleting the id of the new
    item also deletes the older item that has it. *)
Lemma deleteTodo_addTodo_needs_fresh_id :
  todos (run (deleteTodo (js "a1")) (run (addTodo (uuid (js "a1"))) sampleState))
  = [dog].
Proof. vm_compute. reflexivity. Qed.

Lemma startEdit_only_when_not_completed_witness :
  completed dog = true
  ∧ completed milk = false
  ∧ run (text_onDoubleClick dog) sampleState = sampleState
  ∧ run (editButton_onClick dog) sampleState = sampleState
  ∧ editingId (run (editButton_onClick milk) sampleState) = Some (js "a1")
  ∧ editValue (run (text_onDoubleClick milk) sampleState) = js "Buy milk".
Proof.
  destruct (startEdit_only_when_not_completed dog (ClickEdit dog) (js "b2")
              sampleState) as (Hrejected & _ & _).
  destruct (startEdit_only_when_not_completed milk (ClickEdit milk) (js "a1")
              sampleState) as (_ & Hstarted & _).
  destruct (Hrejected eq_refl) as [Hr1 Hr2].
  destruct (Hstarted eq_refl) as (Hs1 & Hs2 & Hs3 & Hs4 & _).
  split_and!; [reflexivity | reflexivity | exact Hr1 | exact Hr2 | |].
  - rewrite Hs2. exact Hs3.
  - rewrite Hs1. exact Hs4.
Defined.

(** [startEdit] itself looks at no flag: the check is made by the controls
    that call it. *)
Lemma startEdit_itself_unguarded :
  completed dog = true
  ∧ editingId (run (startEdit dog) initialState) = Some (js "b2").
Proof. split; reflexivity. Qed.

Lemma saveEdit_absent_witness :
  (js "zz" ∉ id <$> todos sampleState)
  ∧ todos (run (saveEdit (js "zz")) sampleState) = todos sampleState
  ∧ editingId (run (saveEdit (js "zz")) sampleState) = None
  ∧ editValue (run (saveEdit (js "zz")) sampleState) = [].
Proof.
  assert (H : js "zz" ∉ id <$> todos sampleState).
  { apply (bool_decide_unpack _). vm_compute. exact I. }
  destruct (saveEdit_absent (js "zz") sampleState H) as (Ht & _ & Hi & Hv).
  split_and!; [exact H | exact Ht | exact Hi | exact Hv].
Defined.
